(** * BoardsList: the gallery's board list (search, selection, delete dialog)

    A shallow embedding of
    [invokeai/frontend/web/src/features/gallery/components/Boards/BoardsList/BoardsList.tsx].

    The component is a function of its props and hook reads to a React
    element tree, together with two [useState] cells.  We model

    - JavaScript strings as sequences of UTF-16 code units,
    - [String.prototype.includes] as substring search on code units,
    - [String.prototype.toLowerCase] as an interface (a type class) that
      fixes the built-in on ASCII text, with the per-code-unit ASCII mapping
      as an executable instance,
    - [undefined] as [None], and a thrown [TypeError] as an abrupt
      completion, so that the guards [?.] and [&&] of the source matter,
    - the two [useState] cells as a record of local state, and every callback
      the component hands to a child as an event of a transition system. *)

From Stdlib Require Import NArith Ascii String.
From stdpp Require Import base numbers option list.

Local Open Scope N_scope.

(** ** JavaScript strings *)

(** A JavaScript string is a finite sequence of 16-bit code units. *)
Abbreviation jsstring := (list N).

(** String literals of the source, read as code units (ASCII text only). *)
Fixpoint js (s : string) : jsstring :=
  match s with
  | EmptyString => []
  | String a s' => N_of_ascii a :: js s'
  end.

(** [ToBoolean] on a string: the empty string is the only falsy one. *)
Definition truthy (s : jsstring) : bool :=
  match s with
  | [] => false
  | _ :: _ => true
  end.

(** [s.startsWith(t)]: the code units of [t] open [s]. *)
Fixpoint startsWith (s t : jsstring) : bool :=
  match t, s with
  | [], _ => true
  | _ :: _, [] => false
  | c :: t', d :: s' => (c =? d) && startsWith s' t'
  end.

(** [s.includes(t)]: [t] occurs in [s] at some index [>= 0]. *)
Fixpoint includes (s t : jsstring) : bool :=
  startsWith s t ||
  match s with
  | [] => false
  | _ :: s' => includes s' t
  end.

(** The effect of [toLowerCase] on one ASCII code unit: [A]..[Z] move to
    [a]..[z], every other unit stays. *)
Definition lower_unit (c : N) : N :=
  if (65 <=? c) && (c <=? 90) then c + 32 else c.

(** [String.prototype.toLowerCase] is a built-in of the host (the full
    Unicode case conversion, which is neither per-unit nor length
    preserving).  The development is parametric in it; the one fact it
    relies on is that text made of ASCII code units is lower-cased unit by
    unit. *)
Class CaseMapping := {
  toLowerCase : jsstring → jsstring;
  toLowerCase_ascii :
    ∀ s, Forall (λ c, c < 128) s → toLowerCase s = lower_unit <$> s
}.

(** The executable instance: per-unit ASCII lower-casing.  It agrees with
    the built-in on every string whose code units are all below 128. *)
Definition ascii_case : CaseMapping :=
  {| toLowerCase := fmap lower_unit;
     toLowerCase_ascii := λ s _, eq_refl |}.

(** ** Completions *)

Inductive JSError := TypeError.

(** The outcome of evaluating an expression: a value, or a thrown error. *)
Inductive Completion (A : Type) :=
| Normal (a : A)
| Throw (e : JSError).
Arguments Normal {A} a.
Arguments Throw {A} e.

Global Instance Completion_ret : MRet Completion := λ A a, Normal a.
Global Instance Completion_bind : MBind Completion := λ A B k c,
  match c with
  | Normal a => k a
  | Throw e => Throw e
  end.
Global Instance Completion_fmap : FMap Completion := λ A B f c,
  match c with
  | Normal a => Normal (f a)
  | Throw e => Throw e
  end.

(** [o.m(...)]: reading a property of [undefined] throws a [TypeError]. *)
Definition call_method {A B} (o : option A) (m : A → B) : Completion B :=
  match o with
  | Some a => Normal (m a)
  | None => Throw TypeError
  end.

(** [o?.m(...)]: optional chaining yields [undefined] on [undefined]. *)
Definition call_optional {A B} (o : option A) (m : A → B)
  : Completion (option B) :=
  match o with
  | Some a => Normal (Some (m a))
  | None => Normal None
  end.

(** [o && e] for [o] an array or [undefined]: an array is truthy, so [e] is
    evaluated; [undefined] is returned as it is, and [e] is not evaluated. *)
Definition js_and {A B} (o : option A) (e : Completion B)
  : Completion (option B) :=
  match o with
  | Some _ => Some <$> e
  | None => Normal None
  end.

(** ** Data *)

(** [BoardDTO] (from [services/api/types]); the component reads these two
    fields only. *)
Record BoardDTO := {
  board_id : jsstring;
  board_name : jsstring
}.

Global Instance BoardDTO_eq_dec : EqDecision BoardDTO.
Proof. solve_decision. Defined.

Section Filter.
Context `{CaseMapping}.

(** The callback of [boards?.filter(...)], lines 40-42. *)
Definition name_matches (searchText : jsstring) (board : BoardDTO) : bool :=
  includes (toLowerCase (board_name board)) (toLowerCase searchText).

(** [filteredBoards], lines 39-43:
    [searchText ? boards?.filter(...) : boards]. *)
Definition filteredBoards (boards : option (list BoardDTO))
    (searchText : jsstring) : Completion (option (list BoardDTO)) :=
  if truthy searchText
  then call_optional boards (List.filter (name_matches searchText))
  else Normal boards.
End Filter.

(** ** The component *)

(** What one render reads: the prop [isOpen], the selector's
    [selectedBoardId] and [searchText] (lines 20-28, 36), the query's [data]
    (line 37, [undefined] until the first load) and the feature flag
    (line 38).  [selectedBoardId] is a string or [null]. *)
Record Inputs := {
  isOpen : bool;
  selectedBoardId : option jsstring;
  searchText : jsstring;
  boards : option (list BoardDTO);
  isBatchEnabled : bool
}.

(** The two [useState] cells, lines 44-45. *)
Record LocalState := {
  boardToDelete : option BoardDTO;
  isSearching : bool
}.

(** [useState<BoardDTO>()] and [useState(false)] at mount. *)
Definition initialState : LocalState :=
  {| boardToDelete := None; isSearching := false |}.

(** The argument of a [useState] setter: a value, or an updater applied to
    the previous value. *)
Inductive SetStateAction (A : Type) :=
| SetValue (a : A)
| SetUpdater (f : A → A).
Arguments SetValue {A} a.
Arguments SetUpdater {A} f.

Definition apply_action {A} (a : SetStateAction A) (prev : A) : A :=
  match a with
  | SetValue v => v
  | SetUpdater f => f prev
  end.

Definition setBoardToDelete (a : SetStateAction (option BoardDTO))
    (st : LocalState) : LocalState :=
  {| boardToDelete := apply_action a (boardToDelete st);
     isSearching := isSearching st |}.

Definition setIsSearching (a : SetStateAction bool)
    (st : LocalState) : LocalState :=
  {| boardToDelete := boardToDelete st;
     isSearching := apply_action a (isSearching st) |}.

(** [handleClickSearchIcon], lines 46-48: [setIsSearching((v) => !v)]. *)
Definition handleClickSearchIcon (st : LocalState) : LocalState :=
  setIsSearching (SetUpdater negb) st.

(** Modelled from the spec: [requestDelete(board)] is the call
    [setBoardToDelete(board)] made inside [GalleryBoard], which receives the
    setter (line 139) and whose source is not part of this development. *)
Definition requestDelete (board : BoardDTO) : LocalState → LocalState :=
  setBoardToDelete (SetValue (Some board)).

(** Modelled from the spec: [resolveDeleteDialog()] is the call
    [setBoardToDelete(undefined)] made inside [DeleteBoardModal] when the
    dialog closes; it receives the setter (line 149) and its source is not
    part of this development. *)
Definition resolveDeleteDialog : LocalState → LocalState :=
  setBoardToDelete (SetValue None).

(** The callbacks the component hands out, one event each: [onClick] of the
    search icon (line 109), the [setIsSearching] prop of [BoardsSearch]
    (line 80), and the [setBoardToDelete] prop of [GalleryBoard] and
    [DeleteBoardModal] (lines 139, 149). *)
Inductive Event :=
| ClickSearchIcon
| BoardsSearch_setIsSearching (a : SetStateAction bool)
| Child_setBoardToDelete (a : SetStateAction (option BoardDTO)).

Definition step (e : Event) (st : LocalState) : LocalState :=
  match e with
  | ClickSearchIcon => handleClickSearchIcon st
  | BoardsSearch_setIsSearching a => setIsSearching a st
  | Child_setBoardToDelete a => setBoardToDelete a st
  end.

(** The events applied in order, the first of the list first. *)
Definition run (es : list Event) (st : LocalState) : LocalState :=
  foldl (λ s e, step e s) st es.

Inductive reachable : LocalState → Prop :=
| reachable_mount : reachable initialState
| reachable_step e st : reachable st → reachable (step e st).

(** *** The element tree *)

(** A child of [AnimatePresence], lines 64-104: the [motion.div] keyed
    ["boards-search"] around [BoardsSearch], or the one keyed
    ["system-boards-select"] around the group of [SystemBoardButton]s, given
    with their [board_id]s. *)
Inductive PresenceChild :=
| BoardsSearchPane
| SystemBoardsPane (board_ids : list jsstring).

Global Instance PresenceChild_eq_dec : EqDecision PresenceChild.
Proof. solve_decision. Defined.

(** A [GridItem] with its [GalleryBoard], lines 135-141. *)
Record GridCell := {
  cell_key : jsstring;
  cell_board : BoardDTO;
  cell_isSelected : bool
}.

(** What [BoardsList] returns, without styling. *)
Record View := {
  collapse_in : bool;
  presence : list PresenceChild;
  searchIcon_isChecked : bool;
  grid : list GridCell;
  modal_boardToDelete : option BoardDTO
}.

(** The ternary of lines 65-103. *)
Definition search_region (isSearching : bool) : PresenceChild :=
  if isSearching
  then BoardsSearchPane
  else SystemBoardsPane [js "images"; js "assets"; js "no_board"].

(** The callback of [filteredBoards.map(...)], lines 134-142;
    [selectedBoardId === board.board_id] is strict equality. *)
Definition board_cell (selectedBoardId : option jsstring)
    (board : BoardDTO) : GridCell :=
  {| cell_key := board_id board;
     cell_board := board;
     cell_isSelected := bool_decide (selectedBoardId = Some (board_id board)) |}.

(** React renders [undefined] as nothing and an array as its elements. *)
Definition react_children {A} (c : option (list A)) : list A :=
  default [] c.

Definition shows_search (v : View) : Prop :=
  BoardsSearchPane ∈ presence v.

Definition shows_system_boards (v : View) : Prop :=
  ∃ ids, SystemBoardsPane ids ∈ presence v.

Section Component.
Context `{CaseMapping}.

(** The body of [BoardsList], lines 34-153. *)
Definition BoardsList (i : Inputs) (st : LocalState) : Completion View :=
  let _isBatchEnabled := isBatchEnabled i in
  fb ← filteredBoards (boards i) (searchText i);
  cells ← js_and fb (call_method fb (map (board_cell (selectedBoardId i))));
  mret {| collapse_in := isOpen i;
          presence := [search_region (isSearching st)];
          searchIcon_isChecked := isSearching st;
          grid := react_children cells;
          modal_boardToDelete := boardToDelete st |}.
End Component.

(** Two reads that differ at most in the feature flag. *)
Definition with_batches (b : bool) (i : Inputs) : Inputs :=
  {| isOpen := isOpen i;
     selectedBoardId := selectedBoardId i;
     searchText := searchText i;
     boards := boards i;
     isBatchEnabled := b |}.

(** *** The scenario of the specification *)

Definition board_1 : BoardDTO := {| board_id := js "1"; board_name := js "Vacation" |}.
Definition board_2 : BoardDTO := {| board_id := js "2"; board_name := js "Work" |}.
Definition board_3 : BoardDTO := {| board_id := js "3"; board_name := js "vac2" |}.
Definition scenario_boards : list BoardDTO := [board_1; board_2; board_3].

Definition scenario_inputs (q : jsstring) : Inputs :=
  {| isOpen := true;
     selectedBoardId := Some (js "2");
     searchText := q;
     boards := Some scenario_boards;
     isBatchEnabled := false |}.

(** ** Properties stated in the specification's words *)

(** [q] occurs in [s]: [s] is [pre ++ q ++ post]. *)
Definition substring_of (q s : jsstring) : Prop :=
  ∃ pre post, s = pre ++ q ++ post.

Section Words.
Context `{CaseMapping}.

(** [name] contains [q] case-insensitively: [name], lower-cased, contains
    [q] lower-cased as a substring. *)
Definition contains_ci (name q : jsstring) : Prop :=
  substring_of (toLowerCase q) (toLowerCase name).

(** [q'] is a case variant of [q]: both lower-case to the same string. *)
Definition case_variant (q q' : jsstring) : Prop :=
  toLowerCase q = toLowerCase q'.
End Words.

(** A result with no board in it: [undefined] or the empty array. *)
Definition no_boards (r : option (list BoardDTO)) : Prop :=
  r = None ∨ r = Some [].

(** Two ASCII strings that differ at most in the case of their letters,
    position by position. *)
Definition ascii_variant (q q' : jsstring) : Prop :=
  Forall2 (λ c d, c < 128 ∧ d < 128 ∧ lower_unit c = lower_unit d) q q'.

(** Two reads that agree on everything but the feature flag. *)
Definition agree_but_batches (i1 i2 : Inputs) : Prop :=
  isOpen i1 = isOpen i2
  ∧ selectedBoardId i1 = selectedBoardId i2
  ∧ searchText i1 = searchText i2
  ∧ boards i1 = boards i2.

(** The statement that every call yields an empty or a full result. *)
Definition always_empty_or_full `{CaseMapping} : Prop :=
  ∀ data q, ∃ r,
    filteredBoards data q = Normal r ∧ (no_boards r ∨ r = data).

(** The statement that the search icon alone moves the region between its
    two states. *)
Definition only_toggle_transitions : Prop :=
  ∀ st e, reachable st →
    isSearching (step e st) ≠ isSearching st → e = ClickSearchIcon.

(** ** The store and the hooks *)

Module Store.

(** The [boards] slice, as far as the selector reads it; [BoardsRest] stands
    for its other fields. *)
Record BoardsState (BoardsRest : Type) := {
  searchText : jsstring;
  boards_rest : BoardsRest
}.
Arguments searchText {BoardsRest} _.
Arguments boards_rest {BoardsRest} _.

(** The [gallery] slice, likewise. *)
Record GalleryState (GalleryRest : Type) := {
  selectedBoardId : option jsstring;
  gallery_rest : GalleryRest
}.
Arguments selectedBoardId {GalleryRest} _.
Arguments gallery_rest {GalleryRest} _.

(** The root state: the two slices and the other slices of the store. *)
Record RootState (BoardsRest GalleryRest Rest : Type) := {
  boards : BoardsState BoardsRest;
  gallery : GalleryState GalleryRest;
  rest : Rest
}.
Arguments boards {BoardsRest GalleryRest Rest} _.
Arguments gallery {BoardsRest GalleryRest Rest} _.
Arguments rest {BoardsRest GalleryRest Rest} _.

(** The object the selector returns. *)
Record Selected := {
  sel_selectedBoardId : option jsstring;
  sel_searchText : jsstring
}.

(** [selector], lines 20-28. *)
Definition selector {BoardsRest GalleryRest Rest}
    (state : RootState BoardsRest GalleryRest Rest) : Selected :=
  let searchText := searchText (boards state) in
  let selectedBoardId := selectedBoardId (gallery state) in
  {| sel_selectedBoardId := selectedBoardId; sel_searchText := searchText |}.

End Store.

(** The reads of lines 35-38: the prop, the selector applied to the store,
    the query's [data] and the feature status. *)
Definition useInputs {BoardsRest GalleryRest Rest} (props_isOpen : bool)
    (state : Store.RootState BoardsRest GalleryRest Rest)
    (data : option (list BoardDTO)) (isFeatureEnabled : bool) : Inputs :=
  let sel := Store.selector state in
  {| isOpen := props_isOpen;
     selectedBoardId := Store.sel_selectedBoardId sel;
     searchText := Store.sel_searchText sel;
     boards := data;
     isBatchEnabled := isFeatureEnabled |}.

(** ** Traces of events *)

(** The events that come through the [setBoardToDelete] prop. *)
Definition is_delete_event (e : Event) : bool :=
  match e with
  | Child_setBoardToDelete _ => true
  | ClickSearchIcon | BoardsSearch_setIsSearching _ => false
  end.

(** The events of a trace that write [boardToDelete], and the others, which
    write [isSearching]. *)
Definition delete_events (es : list Event) : list Event :=
  List.filter is_delete_event es.

Definition search_events (es : list Event) : list Event :=
  List.filter (λ e, negb (is_delete_event e)) es.

(** [n] clicks on the search icon. *)
Definition clicks (n : nat) : list Event := replicate n ClickSearchIcon.

(** The cells of a tree that are marked selected. *)
Definition selected_cells (v : View) : list GridCell :=
  List.filter cell_isSelected (grid v).

(** The boards a present or absent collection holds. *)
Definition boards_of (data : option (list BoardDTO)) : list BoardDTO :=
  default [] data.

(** The strings all of whose code units are ASCII. *)
Definition is_ascii (s : jsstring) : Prop := Forall (λ c, c < 128) s.

(** Rewrites [toLowerCase] on ASCII literals to the per-unit mapping. *)
Ltac lower_ascii :=
  rewrite ?toLowerCase_ascii by (repeat (constructor; [done |]); constructor).

(** * Proofs *)

Example scenario_vac :
  filteredBoards (H := ascii_case) (Some scenario_boards) (js "vac")
  = Normal (Some [board_1; board_3]).
Proof. reflexivity. Qed.

(** ** Strings: [includes] is substring search *)

Lemma startsWith_nil (s : jsstring) : startsWith s [] = true.
Proof. by destruct s. Qed.

Lemma startsWith_spec (s t : jsstring) :
  startsWith s t = true ↔ ∃ post, s = t ++ post.
Proof.
  revert s. induction t as [|c t IH]; intros s.
  - rewrite startsWith_nil. split; [intros _; by exists s | done].
  - destruct s as [|d s]; simpl.
    + split; [done | by intros [post ?]].
    + rewrite andb_true_iff, N.eqb_eq, IH. split.
      * intros [-> [post ->]]. by exists post.
      * intros [post [= -> ->]]. eauto.
Qed.

Lemma includes_spec (s t : jsstring) :
  includes s t = true ↔ substring_of t s.
Proof.
  unfold substring_of. induction s as [|d s IH]; cbn [includes].
  - rewrite orb_false_r, startsWith_spec. split.
    + intros [post Hs]. by exists [], post.
    + intros [pre [post Hs]]. symmetry in Hs.
      apply app_eq_nil in Hs as [-> Hs]. eauto.
  - rewrite orb_true_iff, startsWith_spec, IH. split.
    + intros [[post ->] | (pre & post & ->)].
      * by exists [], post.
      * by exists (d :: pre), post.
    + intros [[|d' pre] [post Hs]]; simplify_eq/=; eauto.
Qed.

Lemma includes_nil (s : jsstring) : includes s [] = true.
Proof. apply includes_spec. by exists [], s. Qed.

(** ** Arrays: [filter] keeps a sub-list *)

Lemma filter_sublist {A} (f : A → bool) (l : list A) :
  List.filter f l `sublist_of` l.
Proof.
  induction l as [|x l IH]; simpl; [constructor |].
  destruct (f x); by constructor.
Qed.

Lemma filter_elem_of {A} (f : A → bool) (l : list A) (x : A) :
  x ∈ List.filter f l ↔ x ∈ l ∧ f x = true.
Proof. rewrite !list_elem_of_In. apply filter_In. Qed.

Lemma filter_everything {A} (f : A → bool) (l : list A) :
  (∀ x, f x = true) → List.filter f l = l.
Proof.
  intros Hf. induction l as [|x l IH]; simpl; [done |].
  by rewrite Hf, IH.
Qed.

Lemma filter_nothing_excluded {A} (f : A → bool) (l : list A) (x : A) :
  x ∈ l → x ∉ List.filter f l → f x = false.
Proof.
  intros Hl Hr. destruct (f x) eqn:Hx; [|done].
  destruct Hr. by apply filter_elem_of.
Qed.

(** ** Lower-casing *)

Section CaseFacts.
Context `{CaseMapping}.

Lemma toLowerCase_empty : toLowerCase [] = [].
Proof. by rewrite toLowerCase_ascii. Qed.

Lemma name_matches_spec (q : jsstring) (b : BoardDTO) :
  name_matches q b = true ↔ contains_ci (board_name b) q.
Proof. apply includes_spec. Qed.

Lemma name_matches_empty (q : jsstring) (b : BoardDTO) :
  toLowerCase q = [] → name_matches q b = true.
Proof. unfold name_matches. intros ->. apply includes_nil. Qed.

Lemma name_matches_variant (q q' : jsstring) :
  case_variant q q' → name_matches q = name_matches q'.
Proof. unfold case_variant, name_matches. by intros ->. Qed.

(** On a present collection the code returns a present list: the whole
    collection for the empty query, the filtered one otherwise. *)
Lemma filteredBoards_Some (B : list BoardDTO) (q : jsstring) :
  filteredBoards (Some B) q =
  Normal (Some (if truthy q then List.filter (name_matches q) B else B)).
Proof. unfold filteredBoards. by destruct (truthy q). Qed.

Lemma filteredBoards_None (q : jsstring) :
  filteredBoards None q = Normal None.
Proof. unfold filteredBoards. by destruct (truthy q). Qed.

(** Whatever the query, the result is the filter by [name_matches]: for
    the empty query every name matches. *)
Lemma filteredBoards_as_filter (B : list BoardDTO) (q : jsstring) :
  toLowerCase q = [] ∨ truthy q = true →
  filteredBoards (Some B) q = Normal (Some (List.filter (name_matches q) B)).
Proof.
  rewrite filteredBoards_Some. intros [Hq | ->]; [|done].
  rewrite filter_everything by (intros b; by apply name_matches_empty).
  by destruct (truthy q).
Qed.

Lemma truthy_or_lower_empty (q : jsstring) :
  toLowerCase q = [] ∨ truthy q = true.
Proof. destruct q; [left; apply toLowerCase_empty | by right]. Qed.
End CaseFacts.

Lemma ascii_variant_case_variant `{CaseMapping} (q q' : jsstring) :
  ascii_variant q q' → case_variant q q'.
Proof.
  intros Hv. unfold case_variant.
  rewrite !toLowerCase_ascii.
  - induction Hv as [|c d q q' (_ & _ & Hcd) _ IH]; [done |].
    cbn. by rewrite Hcd, IH.
  - eapply Forall2_Forall_r; [exact Hv |].
    apply Forall_true. by intros c d (_ & ? & _).
  - eapply Forall2_Forall_l; [exact Hv |].
    apply Forall_true. by intros d c (? & _ & _).
Qed.

(** The scenario of the specification, under every case mapping. *)
Lemma scenario_vac_any `{CaseMapping} :
  filteredBoards (Some scenario_boards) (js "vac")
  = Normal (Some [board_1; board_3]).
Proof.
  rewrite filteredBoards_Some. unfold name_matches. cbn.
  by lower_ascii.
Qed.

(** ** The filter *)

(** C1. For every board collection [B] and query [q], the code returns a
    list [R] such that: every board of [R] has a name containing [q]
    case-insensitively; every board of [B] left out of [R] has a name that
    does not; [R] is a subset of [B]; and [R] is a sub-list of [B], that
    is, boards keep their relative order. *)
Theorem filteredBoards_sound_complete `{CaseMapping}
    (B : list BoardDTO) (q : jsstring) :
  ∃ R, filteredBoards (Some B) q = Normal (Some R)
     ∧ (∀ b, b ∈ R → contains_ci (board_name b) q)
     ∧ (∀ b, b ∈ B → b ∉ R → ¬ contains_ci (board_name b) q)
     ∧ R ⊆ B
     ∧ R `sublist_of` B.
Proof.
  exists (List.filter (name_matches q) B).
  split; [apply filteredBoards_as_filter, truthy_or_lower_empty |].
  split; [|split; [|split]].
  - intros b Hb. apply name_matches_spec. by apply filter_elem_of in Hb as [_ ?].
  - intros b HB HR Hc. apply name_matches_spec in Hc.
    by rewrite (filter_nothing_excluded _ _ _ HB HR) in Hc.
  - intros b Hb. by apply filter_elem_of in Hb as [? _].
  - apply filter_sublist.
Qed.

(** C2. Filtering with the empty query is the identity: the result is the
    collection itself, the same boards in the same order (and the absent
    collection stays absent). *)
Theorem filteredBoards_empty_query `{CaseMapping} (B : list BoardDTO) :
  filteredBoards (Some B) (js "") = Normal (Some B)
  ∧ ∀ boards, filteredBoards boards (js "") = Normal boards.
Proof. by split. Qed.

(** C3. The filter does not see the case of the query: two queries that
    lower-case to the same string give the same result, on every
    collection; so do two ASCII queries that differ in the case of their
    letters only, and in particular ["ABC"] and ["abc"]. *)
Theorem filteredBoards_case_insensitive `{CaseMapping}
    (data : option (list BoardDTO)) :
  (∀ q q', case_variant q q' →
     filteredBoards data q = filteredBoards data q')
  ∧ (∀ q q', ascii_variant q q' →
     filteredBoards data q = filteredBoards data q')
  ∧ filteredBoards data (js "ABC") = filteredBoards data (js "abc").
Proof.
  assert (Hgen : ∀ q q', case_variant q q' →
            filteredBoards data q = filteredBoards data q').
  { intros q q' Hv. destruct data as [B|].
    - rewrite !filteredBoards_as_filter by apply truthy_or_lower_empty.
      by rewrite (name_matches_variant _ _ Hv).
    - by rewrite !filteredBoards_None. }
  split; [exact Hgen |]. split.
  - intros q q' Hv. by apply Hgen, ascii_variant_case_variant.
  - apply Hgen. unfold case_variant. by lower_ascii.
Qed.

(** The filter at two spellings of one query, on the scenario's boards. *)
Lemma filteredBoards_case_insensitive_witness :
  filteredBoards (H := ascii_case) (Some scenario_boards) (js "VaC")
  = filteredBoards (H := ascii_case) (Some scenario_boards) (js "vac").
Proof.
  apply (proj1 (filteredBoards_case_insensitive (H := ascii_case)
                  (Some scenario_boards))).
  unfold case_variant. reflexivity.
Defined.

(** ** The rendered tree *)

Section Render.
Context `{CaseMapping}.

(** The boards shown for given reads: none while the collection is absent,
    all of them for the empty query, the matching ones otherwise. *)
Lemma BoardsList_Normal (i : Inputs) (st : LocalState) :
  BoardsList i st =
  Normal {| collapse_in := isOpen i;
            presence := [search_region (isSearching st)];
            searchIcon_isChecked := isSearching st;
            grid :=
              match boards i with
              | None => []
              | Some B =>
                  board_cell (selectedBoardId i) <$>
                    (if truthy (searchText i)
                     then List.filter (name_matches (searchText i)) B
                     else B)
              end;
            modal_boardToDelete := boardToDelete st |}.
Proof.
  unfold BoardsList. destruct (boards i) as [B|].
  - by rewrite filteredBoards_Some.
  - by rewrite filteredBoards_None.
Qed.

Lemma BoardsList_grid_state (i : Inputs) (st st' : LocalState) :
  grid <$> BoardsList i st = grid <$> BoardsList i st'.
Proof. by rewrite !BoardsList_Normal. Qed.

Lemma BoardsList_agree (i1 i2 : Inputs) (st : LocalState) :
  agree_but_batches i1 i2 → BoardsList i1 st = BoardsList i2 st.
Proof.
  intros (Ho & Hs & Hq & Hb). rewrite !BoardsList_Normal.
  by rewrite Ho, Hs, Hq, Hb.
Qed.
End Render.

Lemma search_region_shows (b : bool) :
  (BoardsSearchPane ∈ [search_region b] ↔ b = true)
  ∧ ((∃ ids, SystemBoardsPane ids ∈ [search_region b]) ↔ b = false).
Proof.
  destruct b; cbn; split; split; try done.
  - intros _. apply list_elem_of_singleton. done.
  - intros [ids Hin]. by apply list_elem_of_singleton in Hin.
  - intros Hin. by apply list_elem_of_singleton in Hin.
  - intros _. eexists. by apply list_elem_of_singleton.
Qed.

(** C4, as stated, fails under every case mapping: on the scenario's three
    boards the query ["vac"] yields two of them, a result that is neither
    empty nor the full collection. *)
Lemma always_empty_or_full_fails :
  ¬ ∃ H : CaseMapping, @always_empty_or_full H.
Proof.
  intros [H Hall].
  destruct (Hall (Some scenario_boards) (js "vac")) as (r & Hr & Hcase).
  rewrite scenario_vac_any in Hr. injection Hr as <-.
  by destruct Hcase as [[?|?]|?].
Qed.

(** C4, amended. The filter always completes normally, whatever the
    collection (absent, empty or not) and the query (empty or not): an
    absent collection gives an absent result, an empty one the empty list,
    the empty query the collection itself, and a present collection the
    ordered sub-list of the boards whose name contains the query
    case-insensitively.  The component always renders, and while the
    collection is absent its grid has no cell. *)
Theorem filteredBoards_total `{CaseMapping}
    (data : option (list BoardDTO)) (q : jsstring) :
  (∃ r, filteredBoards data q = Normal r
      ∧ (data = None → r = None)
      ∧ (data = Some [] → r = Some [])
      ∧ (q = js "" → r = data)
      ∧ (∀ B, data = Some B →
           ∃ R, r = Some R ∧ R `sublist_of` B
              ∧ ∀ b, b ∈ R ↔ b ∈ B ∧ contains_ci (board_name b) q))
  ∧ (∀ i st, ∃ v, BoardsList i st = Normal v
        ∧ (boards i = None → grid v = [])).
Proof.
  split.
  - destruct data as [B|].
    + exists (Some (List.filter (name_matches q) B)).
      split; [apply filteredBoards_as_filter, truthy_or_lower_empty |].
      split; [done |]. split; [by intros [= ->] |].
      split; [intros ->; by rewrite filter_everything
                by (intros b; apply name_matches_empty, toLowerCase_empty) |].
      intros B' [= <-]. eexists; split; [done |].
      split; [apply filter_sublist |].
      intros b. by rewrite filter_elem_of, name_matches_spec.
    + exists None. rewrite filteredBoards_None. by repeat split.
  - intros i st. eexists. split; [apply BoardsList_Normal |].
    cbn. by intros ->.
Qed.

(** ** The search region *)

(** C5. The search icon's handler is an involution on the local state, one
    application flips [isSearching], and so the rendered tree is back to the
    original after two clicks and differs from it after one. *)
Theorem handleClickSearchIcon_involutive `{CaseMapping}
    (i : Inputs) (st : LocalState) :
  handleClickSearchIcon (handleClickSearchIcon st) = st
  ∧ isSearching (handleClickSearchIcon st) = negb (isSearching st)
  ∧ isSearching (handleClickSearchIcon st) ≠ isSearching st
  ∧ BoardsList i (handleClickSearchIcon (handleClickSearchIcon st))
    = BoardsList i st
  ∧ BoardsList i (handleClickSearchIcon st) ≠ BoardsList i st.
Proof.
  assert (Hinv : handleClickSearchIcon (handleClickSearchIcon st) = st).
  { destruct st as [d s]. unfold handleClickSearchIcon, setIsSearching. cbn.
    by rewrite negb_involutive. }
  split; [done |]. split; [done |].
  split; [cbn; by destruct (isSearching st) |].
  split; [by rewrite Hinv |].
  rewrite !BoardsList_Normal. cbn. by destruct (isSearching st).
Qed.

(** C6, as stated, fails: from the searching state, reached by one click,
    the setter handed to [BoardsSearch] (line 80) brings the region back to
    the system boards, and that event is not the search icon's. *)
Lemma only_toggle_transitions_fails : ¬ only_toggle_transitions.
Proof.
  intros Honly.
  assert (Hr : reachable (step ClickSearchIcon initialState))
    by repeat constructor.
  specialize (Honly _ (BoardsSearch_setIsSearching (SetValue false)) Hr).
  cbn in Honly. by discriminate Honly.
Qed.

(** C6, amended. In every reachable state the region renders exactly one of
    its two views: the search input when [isSearching] holds, the three
    system-board buttons ([images], [assets], [no_board]) when it does not.
    A click on the search icon always moves to the other state; the only
    other event that can is the [setIsSearching] setter handed to the search
    input, and the delete callbacks never do. *)
Theorem search_region_exclusive `{CaseMapping}
    (i : Inputs) (st : LocalState) :
  reachable st →
  ∃ v, BoardsList i st = Normal v
     ∧ (shows_search v ↔ isSearching st = true)
     ∧ (shows_system_boards v ↔ isSearching st = false)
     ∧ (shows_search v ↔ ¬ shows_system_boards v)
     ∧ (isSearching st = true → presence v = [BoardsSearchPane])
     ∧ (isSearching st = false →
          presence v =
          [SystemBoardsPane [js "images"; js "assets"; js "no_board"]])
     ∧ isSearching (step ClickSearchIcon st) = negb (isSearching st)
     ∧ (∀ e, isSearching (step e st) ≠ isSearching st →
          e = ClickSearchIcon ∨ ∃ a, e = BoardsSearch_setIsSearching a)
     ∧ (∀ a, isSearching (step (Child_setBoardToDelete a) st)
             = isSearching st).
Proof.
  intros _. eexists. split; [apply BoardsList_Normal |].
  unfold shows_search, shows_system_boards. cbn [presence].
  destruct (search_region_shows (isSearching st)) as [Hs Hb].
  split; [done |]. split; [done |].
  split; [rewrite Hs, Hb; by destruct (isSearching st) |].
  split; [by intros -> |]. split; [by intros -> |].
  split; [done |]. split; [|done].
  intros [|a|a] Hne; [by left | right; by exists a | done].
Qed.

(** The invariant at mount: the system boards are shown. *)
Lemma search_region_exclusive_witness :
  ∃ v, BoardsList (H := ascii_case) (scenario_inputs (js "vac")) initialState
       = Normal v
     ∧ presence v
       = [SystemBoardsPane [js "images"; js "assets"; js "no_board"]].
Proof.
  destruct (search_region_exclusive (H := ascii_case)
              (scenario_inputs (js "vac")) initialState reachable_mount)
    as (v & Hv & _ & _ & _ & _ & Hsys & _).
  exists v. split; [exact Hv | by apply Hsys].
Defined.

(** ** The delete dialog *)

(** C7. The pending-delete cell is absent at mount; [requestDelete b] sets
    it to [b]; [resolveDeleteDialog] sets it to absent from any state, so in
    particular after a request; and the dialog is rendered with the cell's
    value. *)
Theorem pending_delete_lifecycle `{CaseMapping}
    (b : BoardDTO) (st st' : LocalState) :
  boardToDelete initialState = None
  ∧ boardToDelete (requestDelete b st) = Some b
  ∧ boardToDelete (resolveDeleteDialog st') = None
  ∧ boardToDelete (resolveDeleteDialog (requestDelete b st)) = None
  ∧ ∀ i, modal_boardToDelete <$> BoardsList i (requestDelete b st)
         = Normal (Some b)
       ∧ modal_boardToDelete <$> BoardsList i (resolveDeleteDialog st')
         = Normal None.
Proof.
  repeat split; by rewrite ?BoardsList_Normal.
Qed.

(** ** Selection *)

(** C8. Every rendered cell is marked selected exactly when
    [selectedBoardId] is its board's id.  With [selectedBoardId = "2"] the
    cells marked are those of the board with id ["2"]; on the scenario's
    three boards the marks are: unselected, selected, unselected. *)
Theorem isSelected_marks_selected_board `{CaseMapping}
    (i : Inputs) (st : LocalState) :
  (∃ v, BoardsList i st = Normal v
      ∧ (∀ c, c ∈ grid v →
           cell_isSelected c
           = bool_decide (selectedBoardId i = Some (board_id (cell_board c))))
      ∧ (selectedBoardId i = Some (js "2") →
           ∀ c, c ∈ grid v →
             cell_isSelected c = true ↔ board_id (cell_board c) = js "2"))
  ∧ (λ v, (λ c, (cell_board c, cell_isSelected c)) <$> grid v)
      <$> BoardsList (scenario_inputs (js "")) st
    = Normal [(board_1, false); (board_2, true); (board_3, false)].
Proof.
  split; [|by rewrite BoardsList_Normal].
  eexists. split; [apply BoardsList_Normal |]. cbn [grid].
  assert (Hcell : ∀ c,
    c ∈ match boards i with
        | Some B =>
            board_cell (selectedBoardId i) <$>
              (if truthy (searchText i)
               then List.filter (name_matches (searchText i)) B
               else B)
        | None => []
        end →
    cell_isSelected c
    = bool_decide (selectedBoardId i = Some (board_id (cell_board c)))).
  { intros c Hc. destruct (boards i) as [B|]; [|by apply elem_of_nil in Hc].
    by apply list_elem_of_fmap in Hc as (b & -> & _). }
  split; [exact Hcell |].
  intros Hsel c Hc. rewrite (Hcell c Hc), Hsel, bool_decide_eq_true.
  split; [by intros [= <-] | by intros ->].
Qed.

(** ** The feature flag *)

(** C9. Two renders whose reads agree on everything but the ['batches']
    flag give the same filtered list and the same tree, at the same local
    state and after the same events; the local transitions do not read the
    inputs at all. *)
Theorem batches_flag_unobservable `{CaseMapping}
    (i1 i2 : Inputs) (st : LocalState) (es : list Event) :
  agree_but_batches i1 i2 →
  filteredBoards (boards i1) (searchText i1)
  = filteredBoards (boards i2) (searchText i2)
  ∧ BoardsList i1 st = BoardsList i2 st
  ∧ BoardsList i1 (run es st) = BoardsList i2 (run es st)
  ∧ ∀ b, BoardsList (with_batches b i1) st = BoardsList i1 st.
Proof.
  intros Hag. split; [destruct Hag as (_ & _ & -> & ->); done |].
  split; [by apply BoardsList_agree |].
  split; [by apply BoardsList_agree |].
  intros b. by apply BoardsList_agree.
Qed.

(** The scenario rendered with the flag off and with the flag on. *)
Lemma batches_flag_unobservable_witness :
  BoardsList (H := ascii_case) (scenario_inputs (js "vac")) initialState
  = BoardsList (H := ascii_case)
      (with_batches true (scenario_inputs (js "vac"))) initialState.
Proof.
  apply (batches_flag_unobservable (H := ascii_case)
           (scenario_inputs (js "vac"))
           (with_batches true (scenario_inputs (js "vac")))
           initialState []).
  repeat split.
Defined.

(** ** Frames *)

(** C10. The search icon's handler leaves the pending-delete cell and the
    rendered grid as they were; the [setBoardToDelete] setter, whatever it
    is called with, and so [requestDelete] and [resolveDeleteDialog], leaves
    [isSearching] and the rendered grid as they were. *)
Theorem local_operations_frame `{CaseMapping}
    (i : Inputs) (st : LocalState) :
  (boardToDelete (handleClickSearchIcon st) = boardToDelete st
   ∧ grid <$> BoardsList i (handleClickSearchIcon st)
     = grid <$> BoardsList i st)
  ∧ (∀ a, isSearching (setBoardToDelete a st) = isSearching st
        ∧ grid <$> BoardsList i (setBoardToDelete a st)
          = grid <$> BoardsList i st)
  ∧ (∀ b, isSearching (requestDelete b st) = isSearching st
        ∧ grid <$> BoardsList i (requestDelete b st)
          = grid <$> BoardsList i st)
  ∧ isSearching (resolveDeleteDialog st) = isSearching st
  ∧ grid <$> BoardsList i (resolveDeleteDialog st)
    = grid <$> BoardsList i st.
Proof.
  repeat split; apply BoardsList_grid_state.
Qed.

(** * Further properties of the component *)

(** ** Substrings *)

Lemma substring_of_trans (u t s : jsstring) :
  substring_of u t → substring_of t s → substring_of u s.
Proof.
  intros (p1 & r1 & ->) (p2 & r2 & ->).
  exists (p2 ++ p1), (r1 ++ r2). by rewrite <- !(assoc_L (++)).
Qed.

Lemma substring_of_length (t s : jsstring) :
  substring_of t s → (length t ≤ length s)%nat.
Proof. intros (p & r & ->). rewrite !length_app. lia. Qed.

Lemma is_ascii_substring (t s : jsstring) :
  is_ascii s → substring_of t s → is_ascii t.
Proof.
  unfold is_ascii. intros Hs (p & r & ->).
  by apply Forall_app in Hs as [_ [? _]%Forall_app].
Qed.

Lemma substring_of_fmap (f : N → N) (t s : jsstring) :
  substring_of t s → substring_of (f <$> t) (f <$> s).
Proof.
  intros (p & r & ->). exists (f <$> p), (f <$> r). by rewrite !fmap_app.
Qed.

(** ** More on [filter] *)

Lemma filter_refine {A} (f g : A → bool) (l : list A) :
  (∀ x, g x = true → f x = true) →
  List.filter g (List.filter f l) = List.filter g l.
Proof.
  intros Hgf. induction l as [|x l IH]; [done |]. cbn.
  destruct (f x) eqn:Hf; cbn; rewrite IH; [done |].
  destruct (g x) eqn:Hg; [|done]. by rewrite (Hgf x Hg) in Hf.
Qed.

Lemma filter_nothing {A} (f : A → bool) (l : list A) :
  (∀ x, x ∈ l → f x = false) → List.filter f l = [].
Proof.
  induction l as [|x l IH]; intros Hf; [done |]. cbn.
  rewrite (Hf x) by left. apply IH. intros y Hy. apply Hf. by right.
Qed.

Section FilterFacts.
Context `{CaseMapping}.

(** The code's result on a present collection, for every query. *)
Lemma filteredBoards_filter (B : list BoardDTO) (q : jsstring) :
  filteredBoards (Some B) q = Normal (Some (List.filter (name_matches q) B)).
Proof. apply filteredBoards_as_filter, truthy_or_lower_empty. Qed.

Lemma name_matches_refine (q q' : jsstring) (b : BoardDTO) :
  substring_of (toLowerCase q) (toLowerCase q') →
  name_matches q' b = true → name_matches q b = true.
Proof.
  rewrite !name_matches_spec. unfold contains_ci. intros Hq Hb.
  by eapply substring_of_trans.
Qed.

Lemma filter_refine_query (B : list BoardDTO) (q q' : jsstring) :
  substring_of (toLowerCase q) (toLowerCase q') →
  List.filter (name_matches q') (List.filter (name_matches q) B)
  = List.filter (name_matches q') B.
Proof.
  intros Hq. apply filter_refine. intros b. by apply name_matches_refine.
Qed.

Lemma toLowerCase_app_ascii (q t : jsstring) :
  is_ascii q → is_ascii t →
  substring_of (toLowerCase q) (toLowerCase (q ++ t)).
Proof.
  intros Hq Ht. rewrite !toLowerCase_ascii by (done || by apply Forall_app).
  rewrite fmap_app. by exists [], (lower_unit <$> t).
Qed.
End FilterFacts.

(** X1. Filtering is idempotent: the filter applied to its own result, with
    the same query, returns that result. *)
Theorem filteredBoards_idempotent `{CaseMapping}
    (B : list BoardDTO) (q : jsstring) :
  ∃ R, filteredBoards (Some B) q = Normal (Some R)
     ∧ filteredBoards (Some R) q = Normal (Some R).
Proof.
  eexists. split; [apply filteredBoards_filter |].
  rewrite filteredBoards_filter. by rewrite filter_refine.
Qed.

(** X2. A query whose lower-casing contains the lower-casing of another
    one selects a sub-list of what the other selects, and searching within
    the other's result gives the same boards as searching the collection. *)
Theorem filteredBoards_refine `{CaseMapping}
    (B : list BoardDTO) (q q' : jsstring) :
  substring_of (toLowerCase q) (toLowerCase q') →
  ∃ R R', filteredBoards (Some B) q = Normal (Some R)
        ∧ filteredBoards (Some B) q' = Normal (Some R')
        ∧ R' `sublist_of` R
        ∧ filteredBoards (Some R) q' = Normal (Some R').
Proof.
  intros Hq. eexists _, _.
  split; [apply filteredBoards_filter |].
  split; [apply filteredBoards_filter |].
  split.
  - rewrite <- (filter_refine_query B q q' Hq). apply filter_sublist.
  - by rewrite filteredBoards_filter, filter_refine_query.
Qed.

(** The query ["vac"] refines ["Va"] on the scenario's boards. *)
Lemma filteredBoards_refine_witness :
  ∃ R R',
    filteredBoards (H := ascii_case) (Some scenario_boards) (js "Va")
    = Normal (Some R)
    ∧ filteredBoards (H := ascii_case) (Some scenario_boards) (js "vac")
      = Normal (Some R')
    ∧ R' `sublist_of` R.
Proof.
  destruct (filteredBoards_refine (H := ascii_case) scenario_boards
              (js "Va") (js "vac")) as (R & R' & H1 & H2 & H3 & _).
  - by exists [], (js "c").
  - by exists R, R'.
Defined.

(** X3. Typing further ASCII characters after an ASCII query never brings
    a board back: the result for [q ++ t] is a sub-list of the result for
    [q]. *)
Theorem filteredBoards_typing_narrows `{CaseMapping}
    (B : list BoardDTO) (q t : jsstring) :
  is_ascii q → is_ascii t →
  ∃ R R', filteredBoards (Some B) q = Normal (Some R)
        ∧ filteredBoards (Some B) (q ++ t) = Normal (Some R')
        ∧ R' `sublist_of` R.
Proof.
  intros Hq Ht. eexists _, _.
  split; [apply filteredBoards_filter |].
  split; [apply filteredBoards_filter |].
  rewrite <- (filter_refine_query B q (q ++ t))
    by by apply toLowerCase_app_ascii.
  apply filter_sublist.
Qed.

(** From ["va"] to ["vac"] on the scenario's boards. *)
Lemma filteredBoards_typing_narrows_witness :
  ∃ R R',
    filteredBoards (H := ascii_case) (Some scenario_boards) (js "va")
    = Normal (Some R)
    ∧ filteredBoards (H := ascii_case) (Some scenario_boards)
        (js "va" ++ js "c")
      = Normal (Some R')
    ∧ R' `sublist_of` R.
Proof.
  apply (filteredBoards_typing_narrows (H := ascii_case) scenario_boards
           (js "va") (js "c")).
  - repeat (constructor; [done |]). constructor.
  - repeat (constructor; [done |]). constructor.
Defined.

(** X4. The filter distributes over concatenation of collections: the
    result on [B1 ++ B2] is the result on [B1] followed by that on [B2]. *)
Theorem filteredBoards_app `{CaseMapping}
    (B1 B2 : list BoardDTO) (q : jsstring) :
  ∃ R1 R2, filteredBoards (Some B1) q = Normal (Some R1)
         ∧ filteredBoards (Some B2) q = Normal (Some R2)
         ∧ filteredBoards (Some (B1 ++ B2)) q = Normal (Some (R1 ++ R2)).
Proof.
  eexists _, _.
  split; [apply filteredBoards_filter |].
  split; [apply filteredBoards_filter |].
  by rewrite filteredBoards_filter, List.filter_app.
Qed.

(** X5. Searching for a board's own name, in any spelling that lower-cases
    like it, finds the board. *)
Theorem filteredBoards_finds_own_name `{CaseMapping}
    (B : list BoardDTO) (b : BoardDTO) (q : jsstring) :
  b ∈ B → case_variant (board_name b) q →
  ∃ R, filteredBoards (Some B) q = Normal (Some R) ∧ b ∈ R.
Proof.
  intros Hb Hq. eexists. split; [apply filteredBoards_filter |].
  apply filter_elem_of. split; [done |].
  apply name_matches_spec. unfold contains_ci. rewrite <- Hq.
  exists [], []. cbn. by rewrite app_nil_r.
Qed.

(** The query ["WORK"] finds the board named ["Work"]. *)
Lemma filteredBoards_finds_own_name_witness :
  ∃ R, filteredBoards (H := ascii_case) (Some scenario_boards) (js "WORK")
       = Normal (Some R) ∧ board_2 ∈ R.
Proof.
  apply (filteredBoards_finds_own_name (H := ascii_case)).
  - unfold scenario_boards. right. left.
  - reflexivity.
Defined.

(** X6. A query that occurs, as it is written, in a board's ASCII name
    finds the board. *)
Theorem filteredBoards_finds_substring `{CaseMapping}
    (B : list BoardDTO) (b : BoardDTO) (q : jsstring) :
  b ∈ B → is_ascii (board_name b) → substring_of q (board_name b) →
  ∃ R, filteredBoards (Some B) q = Normal (Some R) ∧ b ∈ R.
Proof.
  intros Hb Ha Hq. eexists. split; [apply filteredBoards_filter |].
  apply filter_elem_of. split; [done |].
  apply name_matches_spec. unfold contains_ci.
  rewrite !toLowerCase_ascii by (done || by eapply is_ascii_substring).
  by apply substring_of_fmap.
Qed.

(** The query ["cat"] finds the board named ["Vacation"]. *)
Lemma filteredBoards_finds_substring_witness :
  ∃ R, filteredBoards (H := ascii_case) (Some scenario_boards) (js "cat")
       = Normal (Some R) ∧ board_1 ∈ R.
Proof.
  apply (filteredBoards_finds_substring (H := ascii_case)).
  - unfold scenario_boards. left.
  - repeat (constructor; [done |]). constructor.
  - by exists (js "Va"), (js "ion").
Defined.

(** X7. A query that, lower-cased, is longer than every lower-cased board
    name selects nothing. *)
Theorem filteredBoards_long_query `{CaseMapping}
    (B : list BoardDTO) (q : jsstring) :
  (∀ b, b ∈ B →
     (length (toLowerCase (board_name b)) < length (toLowerCase q))%nat) →
  filteredBoards (Some B) q = Normal (Some []).
Proof.
  intros Hlen. rewrite filteredBoards_filter. do 2 f_equal.
  apply filter_nothing. intros b Hb.
  destruct (name_matches q b) eqn:Hm; [|done].
  apply name_matches_spec, substring_of_length in Hm.
  specialize (Hlen b Hb). lia.
Qed.

(** Nine characters against names of at most eight. *)
Lemma filteredBoards_long_query_witness :
  filteredBoards (H := ascii_case) (Some scenario_boards) (js "vacations")
  = Normal (Some []).
Proof.
  apply (filteredBoards_long_query (H := ascii_case)).
  intros b Hb.
  apply elem_of_cons in Hb as [-> | Hb]; [cbn; lia |].
  apply elem_of_cons in Hb as [-> | Hb]; [cbn; lia |].
  apply elem_of_cons in Hb as [-> | Hb]; [cbn; lia |].
  by apply elem_of_nil in Hb.
Defined.

(** ** The grid *)

Section GridFacts.
Context `{CaseMapping}.

(** The boards behind the grid: those of the collection that pass. *)
Lemma BoardsList_grid (i : Inputs) (st : LocalState) :
  ∃ v L, BoardsList i st = Normal v
       ∧ grid v = board_cell (selectedBoardId i) <$> L
       ∧ L `sublist_of` boards_of (boards i)
       ∧ filteredBoards (boards i) (searchText i)
         = Normal ((λ _, L) <$> boards i)
       ∧ ∀ b, b ∈ L ↔
           b ∈ boards_of (boards i)
           ∧ (truthy (searchText i) = true →
                name_matches (searchText i) b = true).
Proof.
  rewrite BoardsList_Normal. destruct (boards i) as [B|].
  - rewrite filteredBoards_Some. destruct (truthy (searchText i)).
    + eexists _, _. split; [done |]. split; [done |].
      split; [apply filter_sublist |]. split; [done |].
      intros b. rewrite filter_elem_of. cbn.
      split; [by intros [? ?] | intros [? Hm]; split; [done | by apply Hm]].
    + eexists _, _. split; [done |]. split; [done |].
      split; [done |]. split; [done |].
      intros b. cbn. split; [done | by intros [? _]].
  - eexists _, []. split; [done |]. split; [done |]. split; [done |].
    split; [by rewrite filteredBoards_None |].
    intros b. cbn. split; [intros Hb | intros [Hb _]]; by apply elem_of_nil in Hb.
Qed.
End GridFacts.

Lemma cell_keys (sel : option jsstring) (L : list BoardDTO) :
  cell_key <$> (board_cell sel <$> L) = board_id <$> L.
Proof. rewrite <- list_fmap_compose. by apply list_fmap_ext. Qed.

Lemma cell_boards (sel : option jsstring) (L : list BoardDTO) :
  cell_board <$> (board_cell sel <$> L) = L.
Proof.
  rewrite <- list_fmap_compose. rewrite <- (list_fmap_id L) at 2.
  by apply list_fmap_ext.
Qed.

Lemma unselected_cells (sel : option jsstring) (L : list BoardDTO) :
  (∀ b, b ∈ L → sel ≠ Some (board_id b)) →
  List.filter cell_isSelected (board_cell sel <$> L) = [].
Proof.
  intros Hne. apply filter_nothing. intros c Hc.
  apply list_elem_of_fmap in Hc as (b & -> & Hb). cbn.
  apply bool_decide_eq_false. by apply Hne.
Qed.

Lemma selected_cells_unique (sel : option jsstring) (L : list BoardDTO) :
  NoDup (board_id <$> L) →
  (length (List.filter cell_isSelected (board_cell sel <$> L)) ≤ 1)%nat.
Proof.
  induction L as [|b L IH]; intros Hnd; cbn; [lia |].
  apply NoDup_cons in Hnd as [Hb Hnd].
  destruct (bool_decide_reflect (sel = Some (board_id b))) as [Hsel | _];
    [|by apply IH].
  rewrite unselected_cells; [cbn; lia |].
  intros b' Hb' Hsel'. apply Hb.
  rewrite Hsel in Hsel'. injection Hsel' as ->.
  apply list_elem_of_fmap. by exists b'.
Qed.

(** X8. One cell per filtered board, in the filter's order: the boards of
    the grid are the filter's result (none while it is absent), every cell
    is keyed by its board's id, and the grid has no more cells than the
    collection has boards. *)
Theorem grid_follows_filter `{CaseMapping} (i : Inputs) (st : LocalState) :
  ∃ v R, BoardsList i st = Normal v
       ∧ filteredBoards (boards i) (searchText i) = Normal R
       ∧ cell_board <$> grid v = boards_of R
       ∧ cell_key <$> grid v = board_id <$> boards_of R
       ∧ (length (grid v) ≤ length (boards_of (boards i)))%nat.
Proof.
  destruct (BoardsList_grid i st) as (v & L & Hv & Hg & Hsub & Hf & _).
  exists v, ((λ _, L) <$> boards i). split; [done |]. split; [done |].
  assert (HL : boards_of ((λ _, L) <$> boards i) = L).
  { destruct (boards i); [done |]. cbn in Hsub.
    by apply sublist_nil_r in Hsub. }
  rewrite HL, Hg, cell_boards, cell_keys, length_fmap.
  split; [done |]. split; [done |]. by apply sublist_length.
Qed.

(** X9. When the boards of the collection have pairwise distinct ids, the
    cells of the grid have pairwise distinct keys. *)
Theorem grid_keys_unique `{CaseMapping} (i : Inputs) (st : LocalState) :
  NoDup (board_id <$> boards_of (boards i)) →
  ∃ v, BoardsList i st = Normal v ∧ NoDup (cell_key <$> grid v).
Proof.
  intros Hnd.
  destruct (BoardsList_grid i st) as (v & L & Hv & Hg & Hsub & _).
  exists v. split; [done |]. rewrite Hg, cell_keys.
  eapply sublist_NoDup; [exact Hnd | by apply fmap_sublist].
Qed.

(** The scenario's three ids are distinct. *)
Lemma grid_keys_unique_witness :
  ∃ v, BoardsList (H := ascii_case) (scenario_inputs (js "vac")) initialState
       = Normal v
     ∧ NoDup (cell_key <$> grid v).
Proof.
  apply (grid_keys_unique (H := ascii_case)).
  apply (bool_decide_unpack _). by vm_compute.
Defined.

(** X10. When the boards of the collection have pairwise distinct ids, at
    most one cell of the grid is marked selected. *)
Theorem at_most_one_selected `{CaseMapping} (i : Inputs) (st : LocalState) :
  NoDup (board_id <$> boards_of (boards i)) →
  ∃ v, BoardsList i st = Normal v ∧ (length (selected_cells v) ≤ 1)%nat.
Proof.
  intros Hnd.
  destruct (BoardsList_grid i st) as (v & L & Hv & Hg & Hsub & _).
  exists v. split; [done |]. unfold selected_cells. rewrite Hg.
  apply selected_cells_unique.
  eapply sublist_NoDup; [exact Hnd | by apply fmap_sublist].
Qed.

(** On the scenario, board ["2"] is selected and shown alone. *)
Lemma at_most_one_selected_witness :
  ∃ v, BoardsList (H := ascii_case) (scenario_inputs (js "")) initialState
       = Normal v
     ∧ (length (selected_cells v) ≤ 1)%nat.
Proof.
  apply (at_most_one_selected (H := ascii_case)).
  apply (bool_decide_unpack _). by vm_compute.
Defined.

(** X11. When [selectedBoardId] is [null], or the id of no board of the
    collection (a system board, say), no cell is marked selected. *)
Theorem no_cell_selected `{CaseMapping} (i : Inputs) (st : LocalState) :
  (∀ b, b ∈ boards_of (boards i) → selectedBoardId i ≠ Some (board_id b)) →
  ∃ v, BoardsList i st = Normal v ∧ selected_cells v = [].
Proof.
  intros Hne.
  destruct (BoardsList_grid i st) as (v & L & Hv & Hg & Hsub & _).
  exists v. split; [done |]. unfold selected_cells. rewrite Hg.
  apply unselected_cells. intros b Hb. apply Hne.
  by eapply elem_of_sublist.
Qed.

(** A system board is selected: no user board carries its id. *)
Lemma no_cell_selected_witness :
  ∃ v, BoardsList (H := ascii_case)
         {| isOpen := true; selectedBoardId := Some (js "images");
            searchText := js ""; boards := Some scenario_boards;
            isBatchEnabled := false |} initialState
       = Normal v
     ∧ selected_cells v = [].
Proof.
  apply (no_cell_selected (H := ascii_case)).
  intros b Hb. cbn in Hb |- *.
  apply elem_of_cons in Hb as [-> | Hb]; [done |].
  apply elem_of_cons in Hb as [-> | Hb]; [done |].
  apply elem_of_cons in Hb as [-> | Hb]; [done |].
  by apply elem_of_nil in Hb.
Defined.

Lemma NoDup_fmap_eq {A B} (f : A → B) (l : list A) (x y : A) :
  NoDup (f <$> l) → x ∈ l → y ∈ l → f x = f y → x = y.
Proof.
  induction l as [|a l IH]; intros Hnd Hx Hy Hf;
    [by apply elem_of_nil in Hx |].
  cbn in Hnd. apply NoDup_cons in Hnd as [Ha Hnd].
  apply elem_of_cons in Hx as [-> | Hx];
    apply elem_of_cons in Hy as [-> | Hy]; [done | | | by apply IH].
  - destruct Ha. rewrite Hf. apply list_elem_of_fmap. by exists y.
  - destruct Ha. rewrite <- Hf. apply list_elem_of_fmap. by exists x.
Qed.

(** X12. The selected board is shown, and marked, whenever it belongs to
    the collection and passes the filter: the query is empty, or the
    board's name contains it case-insensitively. *)
Theorem selected_board_shown `{CaseMapping}
    (i : Inputs) (st : LocalState) (b : BoardDTO) :
  b ∈ boards_of (boards i) →
  selectedBoardId i = Some (board_id b) →
  (truthy (searchText i) = true → contains_ci (board_name b) (searchText i)) →
  ∃ v c, BoardsList i st = Normal v
       ∧ c ∈ selected_cells v ∧ cell_board c = b.
Proof.
  intros Hb Hsel Hq.
  destruct (BoardsList_grid i st) as (v & L & Hv & Hg & _ & _ & HL).
  exists v, (board_cell (selectedBoardId i) b). split; [done |].
  split; [|done]. unfold selected_cells. apply filter_elem_of. split.
  - rewrite Hg. apply list_elem_of_fmap. exists b. split; [done |].
    apply HL. split; [done |]. intros Ht. by apply name_matches_spec, Hq.
  - cbn. by apply bool_decide_eq_true.
Qed.

(** Board ["2"], named ["Work"], under the query ["or"]. *)
Lemma selected_board_shown_witness :
  ∃ v c, BoardsList (H := ascii_case) (scenario_inputs (js "or")) initialState
         = Normal v
       ∧ c ∈ selected_cells v ∧ cell_board c = board_2.
Proof.
  apply (selected_board_shown (H := ascii_case)).
  - cbn. right. left.
  - reflexivity.
  - intros _. by exists (js "w"), (js "k").
Defined.

(** X13. A search can hide the selection: when ids are pairwise distinct
    and the selected board's name does not contain the non-empty query, no
    cell is marked selected. *)
Theorem selected_board_hidden `{CaseMapping}
    (i : Inputs) (st : LocalState) (b : BoardDTO) :
  NoDup (board_id <$> boards_of (boards i)) →
  b ∈ boards_of (boards i) →
  selectedBoardId i = Some (board_id b) →
  searchText i ≠ js "" →
  ¬ contains_ci (board_name b) (searchText i) →
  ∃ v, BoardsList i st = Normal v ∧ selected_cells v = [].
Proof.
  intros Hnd Hb Hsel Hq Hno.
  destruct (BoardsList_grid i st) as (v & L & Hv & Hg & _ & _ & HL).
  exists v. split; [done |]. unfold selected_cells. rewrite Hg.
  apply unselected_cells. intros b' Hb' Hsel'.
  apply HL in Hb' as [HB' Hm]. rewrite Hsel in Hsel'.
  injection Hsel' as Hid.
  assert (b = b') as <- by by eapply NoDup_fmap_eq.
  apply Hno, name_matches_spec, Hm. by destruct (searchText i).
Qed.

(** Board ["2"], named ["Work"], under the query ["vac"]. *)
Lemma selected_board_hidden_witness :
  ∃ v, BoardsList (H := ascii_case) (scenario_inputs (js "vac")) initialState
       = Normal v
     ∧ selected_cells v = [].
Proof.
  apply (selected_board_hidden (H := ascii_case) _ _ board_2).
  - apply (bool_decide_unpack _). by vm_compute.
  - cbn. right. left.
  - reflexivity.
  - discriminate.
  - intros Hc. apply name_matches_spec in Hc. discriminate Hc.
Defined.

(** ** Traces *)

Lemma run_cons (e : Event) (es : list Event) (st : LocalState) :
  run (e :: es) st = run es (step e st).
Proof. done. Qed.

Lemma handleClickSearchIcon_twice (st : LocalState) :
  handleClickSearchIcon (handleClickSearchIcon st) = st.
Proof.
  destruct st as [d s]. unfold handleClickSearchIcon, setIsSearching. cbn.
  by rewrite negb_involutive.
Qed.

Lemma step_keeps_boardToDelete (e : Event) (st : LocalState) :
  is_delete_event e = false → boardToDelete (step e st) = boardToDelete st.
Proof. by destruct e. Qed.

Lemma step_keeps_isSearching (e : Event) (st : LocalState) :
  is_delete_event e = true → isSearching (step e st) = isSearching st.
Proof. by destruct e. Qed.

Lemma run_boardToDelete_ext (es : list Event) (s1 s2 : LocalState) :
  boardToDelete s1 = boardToDelete s2 →
  boardToDelete (run es s1) = boardToDelete (run es s2).
Proof.
  revert s1 s2. induction es as [|e es IH]; intros s1 s2 Heq; [done |].
  rewrite !run_cons. apply IH. destruct e; cbn; [done | done |].
  by rewrite Heq.
Qed.

Lemma run_isSearching_ext (es : list Event) (s1 s2 : LocalState) :
  isSearching s1 = isSearching s2 →
  isSearching (run es s1) = isSearching (run es s2).
Proof.
  revert s1 s2. induction es as [|e es IH]; intros s1 s2 Heq; [done |].
  rewrite !run_cons. apply IH. destruct e; cbn; [| |done]; by rewrite Heq.
Qed.

(** X14. After [n] clicks on the search icon the local state is the
    starting one when [n] is even, and the toggled one when [n] is odd. *)
Theorem clicks_parity (n : nat) (st : LocalState) :
  run (clicks n) st = if Nat.even n then st else handleClickSearchIcon st.
Proof.
  revert st. induction n as [|n IH]; intros st; [done |].
  unfold clicks in *. cbn [replicate]. rewrite run_cons, IH.
  rewrite Nat.even_succ, <- Nat.negb_even.
  destruct (Nat.even n); cbn [negb step]; [done |].
  apply handleClickSearchIcon_twice.
Qed.

Lemma run_delete_events (es : list Event) (st : LocalState) :
  boardToDelete (run es st) = boardToDelete (run (delete_events es) st).
Proof.
  revert st. induction es as [|e es IH]; intros st; [done |].
  unfold delete_events in *. cbn [List.filter].
  destruct (is_delete_event e) eqn:He; rewrite !run_cons, IH; [done |].
  apply run_boardToDelete_ext. by apply step_keeps_boardToDelete.
Qed.

Lemma run_search_events (es : list Event) (st : LocalState) :
  isSearching (run es st) = isSearching (run (search_events es) st).
Proof.
  revert st. induction es as [|e es IH]; intros st; [done |].
  unfold search_events in *. cbn [List.filter].
  destruct (is_delete_event e) eqn:He; cbn [negb]; rewrite !run_cons, IH;
    [|done].
  apply run_isSearching_ext. by apply step_keeps_isSearching.
Qed.

(** X15. The two cells evolve independently along every trace: the final
    [boardToDelete] is the one the delete events alone produce, and the final
    [isSearching] the one the other events alone produce. *)
Theorem run_decomposes (es : list Event) (st : LocalState) :
  run es st =
  {| boardToDelete := boardToDelete (run (delete_events es) st);
     isSearching := isSearching (run (search_events es) st) |}.
Proof.
  rewrite <- run_delete_events, <- run_search_events.
  by destruct (run es st).
Qed.

(** X16. A delete event and an event of the search region commute. *)
Theorem delete_and_search_events_commute (e1 e2 : Event) (st : LocalState) :
  is_delete_event e1 = true → is_delete_event e2 = false →
  step e1 (step e2 st) = step e2 (step e1 st).
Proof. by destruct e1, e2. Qed.

(** A request to delete and a click, in both orders. *)
Lemma delete_and_search_events_commute_witness :
  step (Child_setBoardToDelete (SetValue (Some board_1)))
    (step ClickSearchIcon initialState)
  = step ClickSearchIcon
      (step (Child_setBoardToDelete (SetValue (Some board_1))) initialState).
Proof.
  by apply delete_and_search_events_commute.
Defined.

(** X17. Every local state is reachable from mount: the setters accept any
    value, and nothing ties the pending board to the collection. *)
Theorem every_state_reachable (st : LocalState) : reachable st.
Proof.
  destruct st as [d s].
  apply (reachable_step (Child_setBoardToDelete (SetValue d))
           {| boardToDelete := None; isSearching := s |}).
  apply (reachable_step (BoardsSearch_setIsSearching (SetValue s))
           initialState).
  apply reachable_mount.
Qed.

(** ** The tree as a whole *)

(** X18. The search icon is drawn checked exactly when the search input is
    shown, and unchecked exactly when the system boards are. *)
Theorem icon_follows_region `{CaseMapping} (i : Inputs) (st : LocalState) :
  ∃ v, BoardsList i st = Normal v
     ∧ (searchIcon_isChecked v = true ↔ shows_search v)
     ∧ (searchIcon_isChecked v = false ↔ shows_system_boards v).
Proof.
  eexists. split; [apply BoardsList_Normal |].
  unfold shows_search, shows_system_boards. cbn [presence searchIcon_isChecked].
  destruct (search_region_shows (isSearching st)) as [Hs Hb].
  by rewrite Hs, Hb.
Qed.

(** X19. [isOpen] reaches the [Collapse] and nothing else: two renders that
    differ in it have the same region, icon, grid and dialog. *)
Theorem isOpen_only_collapses `{CaseMapping}
    (i1 i2 : Inputs) (st : LocalState) :
  selectedBoardId i1 = selectedBoardId i2 →
  searchText i1 = searchText i2 →
  boards i1 = boards i2 →
  ∃ v1 v2, BoardsList i1 st = Normal v1 ∧ BoardsList i2 st = Normal v2
         ∧ collapse_in v1 = isOpen i1 ∧ collapse_in v2 = isOpen i2
         ∧ presence v1 = presence v2
         ∧ searchIcon_isChecked v1 = searchIcon_isChecked v2
         ∧ grid v1 = grid v2
         ∧ modal_boardToDelete v1 = modal_boardToDelete v2.
Proof.
  intros Hs Hq Hb. eexists _, _. split; [apply BoardsList_Normal |].
  split; [apply BoardsList_Normal |]. cbn. by rewrite Hs, Hq, Hb.
Qed.

(** The scenario, open and closed. *)
Lemma isOpen_only_collapses_witness :
  ∃ v1 v2,
    BoardsList (H := ascii_case) (scenario_inputs (js "vac")) initialState
    = Normal v1
    ∧ BoardsList (H := ascii_case)
        {| isOpen := false; selectedBoardId := Some (js "2");
           searchText := js "vac"; boards := Some scenario_boards;
           isBatchEnabled := false |} initialState
      = Normal v2
    ∧ collapse_in v1 = true ∧ collapse_in v2 = false
    ∧ grid v1 = grid v2.
Proof.
  destruct (isOpen_only_collapses (H := ascii_case)
              (scenario_inputs (js "vac"))
              {| isOpen := false; selectedBoardId := Some (js "2");
                 searchText := js "vac"; boards := Some scenario_boards;
                 isBatchEnabled := false |} initialState
              eq_refl eq_refl eq_refl)
    as (v1 & v2 & H1 & H2 & Ho1 & Ho2 & _ & _ & Hg & _).
  by exists v1, v2.
Defined.

(** ** The store *)

(** X20. The selector keeps exactly two fields of the store: two states
    select equal objects if and only if they agree on [boards.searchText]
    and on [gallery.selectedBoardId]; and two such states, with the same
    props, query data and feature status, render the same tree. *)
Theorem selector_reads_two_fields `{CaseMapping} {BoardsRest GalleryRest Rest}
    (s1 s2 : Store.RootState BoardsRest GalleryRest Rest)
    (props_isOpen : bool) (data : option (list BoardDTO))
    (isFeatureEnabled : bool) (st : LocalState) :
  (Store.selector s1 = Store.selector s2 ↔
     Store.searchText (Store.boards s1) = Store.searchText (Store.boards s2)
     ∧ Store.selectedBoardId (Store.gallery s1)
       = Store.selectedBoardId (Store.gallery s2))
  ∧ (Store.selector s1 = Store.selector s2 →
     BoardsList (useInputs props_isOpen s1 data isFeatureEnabled) st
     = BoardsList (useInputs props_isOpen s2 data isFeatureEnabled) st).
Proof.
  split.
  - unfold Store.selector. split.
    + by intros [= -> ->].
    + by intros [-> ->].
  - intros Hsel. unfold useInputs. by rewrite Hsel.
Qed.

(** Two stores that differ outside the two fields. *)
Lemma selector_reads_two_fields_witness :
  BoardsList (H := ascii_case)
    (useInputs true
       {| Store.boards :=
            {| Store.searchText := js "vac"; Store.boards_rest := 1%nat |};
          Store.gallery :=
            {| Store.selectedBoardId := Some (js "2");
               Store.gallery_rest := true |};
          Store.rest := js "a" |}
       (Some scenario_boards) false) initialState
  = BoardsList (H := ascii_case)
      (useInputs true
         {| Store.boards :=
              {| Store.searchText := js "vac"; Store.boards_rest := 2%nat |};
            Store.gallery :=
              {| Store.selectedBoardId := Some (js "2");
                 Store.gallery_rest := false |};
            Store.rest := js "b" |}
         (Some scenario_boards) false) initialState.
Proof.
  apply (proj2 (selector_reads_two_fields (H := ascii_case) _ _ true
                  (Some scenario_boards) false initialState)).
  reflexivity.
Defined.
